(** * songcomposer: MIDI to SC-format conversion (src/midi_to_sc.py)

    A shallow embedding of [midi_to_sc_format] and of its two nested
    helpers, [midi_note_to_name] and [convert_ticks_to_duration].

    - Python integers are [Z]; list lengths and indices are [nat].
    - The [note_names] dict is a [gmap Z string].
    - The lists held in [current_bar_notes] and [bars] are Python objects:
      [bars] stores references, so the lists live in a store and are named
      by their location.
    - The caller's [lyrics] list is drained by [pop(0)]; the formatter
      threads it as state and may stop with [IndexError]. *)

From Stdlib Require Import ZArith Lia.
From stdpp Require Import base option list gmap strings pretty.

Local Open Scope Z_scope.

(** ** Note Namer *)

(** The literal of lines 27-32, in source order. *)
Definition note_names_items : list (Z * string) :=
  [ (60, "C4"); (61, "C#4"); (62, "D4"); (63, "D#4"); (64, "E4"); (65, "F4");
    (66, "F#4"); (67, "G4"); (68, "G#4"); (69, "A4"); (70, "A#4"); (71, "B4");
    (72, "C5"); (73, "C#5"); (74, "D5"); (75, "D#5"); (76, "E5"); (77, "F5");
    (78, "F#5"); (79, "G5"); (80, "G#5"); (81, "A5"); (82, "A#5"); (83, "B5");
    (84, "C6"); (85, "C#6"); (86, "D6"); (87, "D#6"); (88, "E6"); (89, "F6");
    (90, "F#6"); (91, "G6") ]%string.

Definition note_names : gmap Z string := list_to_map note_names_items.

(** [note_names.get(midi_number, "Unknown")] *)
Definition midi_note_to_name (midi_number : Z) : string :=
  default "Unknown"%string (note_names !! midi_number).

(** ** Duration Quantizer *)

(** [int(ticks / 10)]: true division followed by truncation towards zero.
    The quotient of two integers is correctly rounded, and the line is only
    reached for [10 <= ticks <= 500], where the rounded quotient has the
    same integer part as the exact one; [Z.quot] truncates like [int]. *)
Definition convert_ticks_to_duration (ticks : Z) : Z :=
  if ticks <? 10 then 79
  else if 500 <? ticks then 512
  else ticks ÷ 10.

(** The twelve pitch classes of the chromatic scale, written with sharps. *)
Definition pitch_classes : list string :=
  [ "C"; "C#"; "D"; "D#"; "E"; "F"; "F#"; "G"; "G#"; "A"; "A#"; "B" ]%string.

(** Scientific pitch name of a MIDI number at or above 60 (= C4). *)
Definition chromatic_name (n : Z) : string :=
  default EmptyString (pitch_classes !! Z.to_nat ((n - 60) mod 12))
  +:+ pretty (4 + (n - 60) / 12).

(** ** Events

    What the MIDI reader hands over: [midi.tracks] is a list of tracks,
    each a list of messages. Only note-on messages are read for [note]
    and [velocity]; [time] is read on every message. *)

Record Message := mkMessage {
  type : string;
  note : Z;
  velocity : Z;
  time : Z
}.

Definition note_on (n v t : Z) : Message := mkMessage "note_on" n v t.

(** [msg.type == 'note_on' and msg.velocity > 0] *)
Definition is_sounding (msg : Message) : bool :=
  bool_decide (type msg = "note_on"%string) && (0 <? velocity msg).

(** ** Bar Segmenter

    Python lists are objects. [bars.append(current_bar_notes)] stores a
    reference, and [current_bar_notes.append(...)] updates the object in
    place, so the store of list objects is explicit: a location is the
    index of an object in [heap]. *)

Abbreviation loc := nat (only parsing).

Record SegState := mkSegState {
  heap : list (list string);
  prev_time : Z;
  current_bar_notes : loc;
  bars : list loc
}.

(** Lines 53-55: [current_bar_notes = []] creates object 0. *)
Definition seg_init : SegState := mkSegState [[]] 0 0%nat [].

(** The list object at a location. *)
Definition deref (h : list (list string)) (l : loc) : list string :=
  default [] (h !! l).

(** [f"<{note_name}>,<{duration}>"] *)
Definition note_token (note_name : string) (duration : Z) : string :=
  "<" +:+ note_name +:+ ">,<" +:+ pretty duration +:+ ">".

(** Lines 60-72, one iteration of the inner loop. *)
Definition process_msg (ticks_per_bar : Z) (st : SegState) (msg : Message)
  : SegState :=
  let st1 :=
    if is_sounding msg then
      let note_name := midi_note_to_name (note msg) in
      let duration := convert_ticks_to_duration (time msg - prev_time st) in
      let note_duration := note_token note_name duration in
      (* current_bar_notes.append(note_duration) *)
      let h := alter (λ o, o ++ [note_duration]) (current_bar_notes st)
                 (heap st) in
      if ticks_per_bar <=? time msg then
        (* bars.append(current_bar_notes); current_bar_notes = [] *)
        mkSegState (h ++ [[]]) (prev_time st) (length h)
                   (bars st ++ [current_bar_notes st])
      else
        mkSegState h (prev_time st) (current_bar_notes st) (bars st)
    else st in
  mkSegState (heap st1) (time msg) (current_bar_notes st1) (bars st1).

(** Lines 75-76: a non-empty list is truthy; the reference is appended and
    [current_bar_notes] keeps naming the same object. *)
Definition flush_track (st : SegState) : SegState :=
  match deref (heap st) (current_bar_notes st) with
  | [] => st
  | _ :: _ =>
      mkSegState (heap st) (prev_time st) (current_bar_notes st)
                 (bars st ++ [current_bar_notes st])
  end.

(** Lines 59-76, one iteration of the outer loop. *)
Definition process_track (ticks_per_bar : Z) (st : SegState)
    (track : list Message) : SegState :=
  flush_track (foldl (process_msg ticks_per_bar) st track).

(** Lines 53-76. *)
Definition segment (tracks : list (list Message)) (ticks_per_bar : Z)
  : SegState :=
  foldl (process_track ticks_per_bar) seg_init tracks.

(** The bars as the formatter sees them when it iterates over [bars]. *)
Definition bar_values (st : SegState) : list (list string) :=
  deref (heap st) <$> bars st.

Definition converted_bars (tracks : list (list Message)) (ticks_per_bar : Z)
  : list (list string) :=
  bar_values (segment tracks ticks_per_bar).

(** ** Formatter *)

Inductive exn := IndexError.

Definition ordinals : list string :=
  [ "first"; "second"; "third"; "fourth"; "fifth"; "sixth"; "seventh" ]%string.

Definition nl : string := String (Ascii.ascii_of_nat 10) EmptyString.

(** The two f-strings of lines 87 and 89. *)
Definition lyric_line_text (word lyric_line line : string) : string :=
  "The " +:+ word +:+ " line: " +:+ lyric_line +:+ ", " +:+ line +:+ "," +:+ nl.

Definition plain_line_text (word line : string) : string :=
  "The " +:+ word +:+ " line: " +:+ line +:+ "," +:+ nl.

(** Lines 80-89: the loop over [enumerate(bars)], from index [i] on. The
    second component is the caller's [lyrics] list when the loop stops.
    On the lyric path [pop(0)] runs before the ordinal is looked up. *)
Fixpoint format_bars (i : nat) (bs : list (list string))
    (lyrics : list string) (result : string) : (exn + string) * list string :=
  match bs with
  | [] => (inr result, lyrics)
  | bar :: rest =>
      let line := String.concat " | " bar in
      match lyrics with
      | lyric_line :: lyrics' =>
          match ordinals !! i with
          | Some word =>
              format_bars (S i) rest lyrics'
                (result +:+ lyric_line_text word lyric_line line)
          | None => (inl IndexError, lyrics')
          end
      | [] =>
          match ordinals !! i with
          | Some word =>
              format_bars (S i) rest [] (result +:+ plain_line_text word line)
          | None => (inl IndexError, [])
          end
      end
  end.

(** [f"Total {len(bars)} lines.\n"] *)
Definition header (n : nat) : string :=
  "Total " +:+ pretty n +:+ " lines." +:+ nl.

(** Lines 79-91. *)
Definition format (bs : list (list string)) (lyrics : list string)
  : (exn + string) * list string :=
  format_bars 0 bs lyrics (header (length bs)).

(** The whole conversion, on the tracks the MIDI reader returns. The result
    is the returned string or the exception raised, with the caller's
    lyric list as the call leaves it. *)
Definition midi_to_sc_format (tracks : list (list Message))
    (lyrics : list string) (ticks_per_bar : Z)
  : (exn + string) * list string :=
  format (converted_bars tracks ticks_per_bar) lyrics.


(** ** Value-level view of the segmenter

    The only list object that is ever updated is the one named by
    [current_bar_notes]. So the segmenter state can be described without a
    store: the finished bars by value ([v_done]), the contents of the
    current list ([v_cur]), and how many trailing entries of [bars] refer to
    the current list ([v_shared]); [seg_refines] relates the two and
    [segment_values] proves that the store version computes exactly this. *)

Record VState := mkVState {
  v_prev : Z;
  v_cur : list string;
  v_done : list (list string);
  v_shared : nat
}.

Definition v_init : VState := mkVState 0 [] [] 0.

Definition v_bars (v : VState) : list (list string) :=
  v_done v ++ replicate (v_shared v) (v_cur v).

Definition v_msg (ticks_per_bar : Z) (v : VState) (msg : Message) : VState :=
  if is_sounding msg then
    let cur := v_cur v ++
      [note_token (midi_note_to_name (note msg))
         (convert_ticks_to_duration (time msg - v_prev v))] in
    if ticks_per_bar <=? time msg then
      mkVState (time msg) []
        (v_done v ++ replicate (v_shared v) cur ++ [cur]) 0
    else mkVState (time msg) cur (v_done v) (v_shared v)
  else mkVState (time msg) (v_cur v) (v_done v) (v_shared v).

Definition v_flush (v : VState) : VState :=
  match v_cur v with
  | [] => v
  | _ :: _ => mkVState (v_prev v) (v_cur v) (v_done v) (S (v_shared v))
  end.

Definition v_track (ticks_per_bar : Z) (v : VState) (track : list Message)
  : VState :=
  v_flush (foldl (v_msg ticks_per_bar) v track).

Definition seg_refines (st : SegState) (v : VState) : Prop :=
  prev_time st = v_prev v
  ∧ (current_bar_notes st < length (heap st))%nat
  ∧ deref (heap st) (current_bar_notes st) = v_cur v
  ∧ ∃ finished : list loc,
      bars st = finished ++ replicate (v_shared v) (current_bar_notes st)
      ∧ Forall (λ l, (l < length (heap st))%nat ∧ l ≠ current_bar_notes st)
          finished
      ∧ deref (heap st) <$> finished = v_done v.

(** ** Measures used by the properties *)

(** Number of note tokens over all bars. *)
Definition token_count (bs : list (list string)) : nat :=
  sum_list_with length bs.

(** Number of note-on events with velocity > 0 in a track, in a file. *)
Definition sounding_in (track : list Message) : nat :=
  length (filter (λ msg, is_sounding msg = true) track).

Definition sounding_count (tracks : list (list Message)) : nat :=
  sum_list_with sounding_in tracks.

(** One track segmented on its own, from the initial state of line 53-55. *)
Definition segment_track (ticks_per_bar : Z) (track : list Message)
  : list (list string) :=
  bar_values (process_track ticks_per_bar seg_init track).

(** ** The text the formatter is expected to produce

    Written out on their own, with the literal text: these definitions use
    none of the formatter's ([ordinals], [nl], [header], the two line
    texts), and the formatter uses none of these. Line [i] carries the
    [i]-th ordinal word and, when the lyric list has an [i]-th entry, that
    entry as its prefix. *)

(** The character 10, by its bits (lowest first). *)
Definition line_feed : string :=
  String (Ascii.Ascii false true false true false false false false)
    EmptyString.

Definition ordinal_word (i : nat) : string :=
  match i with
  | 0%nat => "first"
  | 1%nat => "second"
  | 2%nat => "third"
  | 3%nat => "fourth"
  | 4%nat => "fifth"
  | 5%nat => "sixth"
  | 6%nat => "seventh"
  | _ => EmptyString
  end.

Definition rendered_line (i : nat) (lyric : option string)
    (bar : list string) : string :=
  match lyric with
  | Some lyric_line =>
      "The " +:+ ordinal_word i +:+ " line: " +:+ lyric_line +:+ ", "
        +:+ String.concat " | " bar +:+ "," +:+ line_feed
  | None =>
      "The " +:+ ordinal_word i +:+ " line: "
        +:+ String.concat " | " bar +:+ "," +:+ line_feed
  end.

Definition rendered_lines (bs : list (list string)) (lyrics : list string)
  : list string :=
  imap (λ i bar, rendered_line i (lyrics !! i) bar) bs.

Definition join_lines (ls : list string) : string :=
  foldr String.append EmptyString ls.

(** ** Sample inputs *)

(** Two tracks, one short note each. *)
Definition two_tracks : list (list Message) :=
  [ [note_on 60 64 0]; [note_on 62 64 0] ].

(** Two tracks whose single notes both sit on the bar trigger. *)
Definition two_full_tracks : list (list Message) :=
  [ [note_on 60 64 480]; [note_on 62 64 480] ].

(** One track of ten notes, each of which closes a bar. *)
Definition ten_bars_track : list Message := replicate 10 (note_on 60 64 480).

Definition nine_lyrics : list string :=
  [ "l1"; "l2"; "l3"; "l4"; "l5"; "l6"; "l7"; "l8"; "l9" ]%string.


(** ** Measures on event streams *)

(** A sounding note-on whose time field reaches [ticks_per_bar] (line 68). *)
Definition closes_bar (ticks_per_bar : Z) (msg : Message) : bool :=
  is_sounding msg && (ticks_per_bar <=? time msg).

(** The tokens of the sounding note-ons of an event stream, in stream
    order; [prev] is the time field of the event before the stream. *)
Fixpoint stream_tokens (prev : Z) (track : list Message) : list string :=
  match track with
  | [] => []
  | msg :: rest =>
      (if is_sounding msg then
         [note_token (midi_note_to_name (note msg))
            (convert_ticks_to_duration (time msg - prev))]
       else [])
      ++ stream_tokens (time msg) rest
  end.

(** The last sounding note-on of a track, if there is one. *)
Definition last_sounding (track : list Message) : option Message :=
  last (filter (λ msg, is_sounding msg = true) track).

(** Whether a track ends inside a bar: its last sounding note-on does not
    close one. *)
Definition ends_open (ticks_per_bar : Z) (track : list Message) : bool :=
  match last_sounding track with
  | Some msg => negb (ticks_per_bar <=? time msg)
  | None => false
  end.

(** Number of line feeds in a text. *)
Fixpoint newlines (s : string) : nat :=
  match s with
  | EmptyString => 0%nat
  | String c s' =>
      ((if bool_decide (c = Ascii.ascii_of_nat 10) then 1 else 0)
       + newlines s')%nat
  end.

(** Whether a character occurs in a text. *)
Fixpoint occurs (c : Ascii.ascii) (s : string) : bool :=
  match s with
  | EmptyString => false
  | String c' s' => bool_decide (c' = c) || occurs c s'
  end.


(** * Properties *)

(** ** Note Namer *)

Example midi_note_to_name_60 : midi_note_to_name 60 = "C4"%string.
Proof. reflexivity. Qed.

Example chromatic_name_91 : chromatic_name 91 = "G6"%string.
Proof. reflexivity. Qed.

Lemma note_names_keys : note_names_items.*1 = seqZ 60 32.
Proof. reflexivity. Qed.

Lemma note_names_outside (n : Z) :
  ¬ (60 ≤ n ≤ 91) → note_names !! n = None.
Proof.
  intros Hn. apply not_elem_of_list_to_map_1.
  rewrite note_names_keys, elem_of_seqZ. lia.
Qed.

Lemma named_range_chromatic :
  Forall (λ n, midi_note_to_name n ≠ "Unknown"%string
               ∧ midi_note_to_name n = chromatic_name n) (seqZ 60 32).
Proof. compute_done. Qed.

Lemma named_range_distinct :
  Forall (λ n, Forall (λ m, midi_note_to_name n = midi_note_to_name m → n = m)
                 (seqZ 60 32)) (seqZ 60 32).
Proof. compute_done. Qed.

Lemma in_named_range (n : Z) : 60 ≤ n ≤ 91 → n ∈ seqZ 60 32.
Proof. rewrite elem_of_seqZ. lia. Qed.

(** C5: on 60..91 the Note Namer never answers "Unknown", its answer is the
    sharps-only chromatic name counted up from C4 (so 60 is C4 and 91 is
    G6), and two different numbers of the range get different names;
    outside 60..91 the answer is the literal "Unknown". *)
Theorem C5_note_namer_range :
  (∀ n, 60 ≤ n ≤ 91 →
        midi_note_to_name n ≠ "Unknown"%string
        ∧ midi_note_to_name n = chromatic_name n)
  ∧ (∀ n m, 60 ≤ n ≤ 91 → 60 ≤ m ≤ 91 →
            midi_note_to_name n = midi_note_to_name m → n = m)
  ∧ (∀ n, ¬ (60 ≤ n ≤ 91) → midi_note_to_name n = "Unknown"%string).
Proof.
  split; [|split].
  - intros n Hn.
    exact (proj1 (Forall_forall _ _) named_range_chromatic n (in_named_range n Hn)).
  - intros n m Hn Hm.
    pose proof (proj1 (Forall_forall _ _) named_range_distinct n
                  (in_named_range n Hn)) as Hrow.
    exact (proj1 (Forall_forall _ _) Hrow m (in_named_range m Hm)).
  - intros n Hn. unfold midi_note_to_name.
    by rewrite (note_names_outside n Hn).
Qed.

Lemma C5_note_namer_range_witness :
  (midi_note_to_name 60 ≠ "Unknown"%string
   ∧ midi_note_to_name 60 = chromatic_name 60)
  ∧ (midi_note_to_name 60 = midi_note_to_name 60 → 60 = 60)
  ∧ midi_note_to_name 59 = "Unknown"%string
  ∧ midi_note_to_name 92 = "Unknown"%string.
Proof.
  destruct C5_note_namer_range as (Hin & Hinj & Hout).
  split; [apply Hin; lia|].
  split; [apply Hinj; lia|].
  split; apply Hout; lia.
Defined.

(** ** Duration Quantizer *)

(** C4: for a non-negative delta the token is 79 below 10, 512 above 500,
    and floor(d / 10), a value of 1..50, in between; with the six sample
    values of the specification. *)
Theorem C4_quantizer_nonneg (d : Z) :
  0 ≤ d →
  (d < 10 → convert_ticks_to_duration d = 79)
  ∧ (500 < d → convert_ticks_to_duration d = 512)
  ∧ (10 ≤ d ≤ 500 →
       convert_ticks_to_duration d = d / 10 ∧ 1 ≤ d / 10 ≤ 50)
  ∧ convert_ticks_to_duration 5 = 79
  ∧ convert_ticks_to_duration 9 = 79
  ∧ convert_ticks_to_duration 10 = 1
  ∧ convert_ticks_to_duration 500 = 50
  ∧ convert_ticks_to_duration 501 = 512
  ∧ convert_ticks_to_duration 10000 = 512.
Proof.
  intros Hd. unfold convert_ticks_to_duration.
  repeat split; try reflexivity.
  - intros H. destruct (Z.ltb_spec d 10); [done | lia].
  - intros H. destruct (Z.ltb_spec d 10); [lia |].
    destruct (Z.ltb_spec 500 d); [done | lia].
  - destruct (Z.ltb_spec d 10); [lia |].
    destruct (Z.ltb_spec 500 d); [lia |].
    apply Z.quot_div_nonneg; lia.
  - apply Z.div_le_lower_bound; lia.
  - apply Z.div_le_upper_bound; lia.
Qed.

Lemma C4_quantizer_nonneg_witness :
  convert_ticks_to_duration 7 = 79
  ∧ convert_ticks_to_duration 777 = 512
  ∧ convert_ticks_to_duration 237 = 23.
Proof.
  split; [apply (C4_quantizer_nonneg 7); lia|].
  split; [apply (C4_quantizer_nonneg 777); lia|].
  exact (proj1 (proj1 (proj2 (proj2 (C4_quantizer_nonneg 237 ltac:(lia))))
                  ltac:(lia))).
Defined.

(** C3, as stated, fails at delta = -380: the token is 79, not
    floor(-380 / 10) = -38, and it is not negative. *)
Lemma C3_negative_delta_counterexample :
  -380 < 0
  ∧ convert_ticks_to_duration (-380) = 79
  ∧ convert_ticks_to_duration (-380) ≠ -380 / 10
  ∧ ¬ convert_ticks_to_duration (-380) < 0.
Proof.
  split; [lia|]. split; [reflexivity|].
  split; [by vm_compute | by vm_compute].
Qed.

(** C3, amended: a negative delta is below 10, so the first guard answers
    and the token is 79. *)
Theorem C3_negative_delta_is_79 (delta : Z) :
  delta < 0 → convert_ticks_to_duration delta = 79.
Proof.
  intros H. unfold convert_ticks_to_duration.
  destruct (Z.ltb_spec delta 10); [done | lia].
Qed.

Lemma C3_negative_delta_is_79_witness :
  convert_ticks_to_duration (-380) = 79.
Proof. apply (C3_negative_delta_is_79 (-380)). lia. Defined.

(** X1: whatever the delta, negative ones included, the token is 79, 512
    or one of 1..50; it is never zero or negative. *)
Lemma duration_token_range (ticks : Z) :
  convert_ticks_to_duration ticks = 79
  ∨ convert_ticks_to_duration ticks = 512
  ∨ 1 ≤ convert_ticks_to_duration ticks ≤ 50.
Proof.
  unfold convert_ticks_to_duration.
  destruct (Z.ltb_spec ticks 10); [by left|].
  destruct (Z.ltb_spec 500 ticks); [by right; left|].
  right; right. rewrite Z.quot_div_nonneg by lia.
  split; [apply Z.div_le_lower_bound | apply Z.div_le_upper_bound]; lia.
Qed.

(** ** Store and value views of the segmenter agree *)

Lemma deref_alter_eq (h : list (list string)) (l : loc) f :
  (l < length h)%nat → deref (alter f l h) l = f (deref h l).
Proof.
  intros Hl. unfold deref. rewrite list_lookup_alter_eq.
  destruct (lookup_lt_is_Some_2 h l Hl) as [o Ho]. by rewrite Ho.
Qed.

Lemma deref_alter_ne (h : list (list string)) (l l' : loc) f :
  l ≠ l' → deref (alter f l h) l' = deref h l'.
Proof. intros Hne. unfold deref. by rewrite list_lookup_alter_ne. Qed.

Lemma deref_app_l (h h' : list (list string)) (l : loc) :
  (l < length h)%nat → deref (h ++ h') l = deref h l.
Proof. intros Hl. unfold deref. by rewrite lookup_app_l. Qed.

Lemma deref_app_new (h : list (list string)) :
  deref (h ++ [[]]) (length h) = [].
Proof. unfold deref. by rewrite list_lookup_middle. Qed.

Lemma seg_refines_init : seg_refines seg_init v_init.
Proof.
  repeat split; simpl; [lia|]. exists []. by repeat split.
Qed.

Lemma seg_refines_msg tpb st v msg :
  seg_refines st v →
  seg_refines (process_msg tpb st msg) (v_msg tpb v msg).
Proof.
  intros (Hprev & Hcur & Hval & fin & Hbars & Hfin & Hdone).
  unfold process_msg, v_msg. rewrite <- Hprev.
  destruct (is_sounding msg); [|by repeat split; eauto].
  set (tok := note_token _ _).
  set (h := alter _ _ _).
  assert (Hlen : length h = length (heap st)) by apply length_alter.
  assert (Hnew : deref h (current_bar_notes st) = v_cur v ++ [tok]).
  { unfold h. by rewrite deref_alter_eq, Hval. }
  assert (Hold : deref h <$> fin = v_done v).
  { rewrite <- Hdone. apply Forall_fmap_ext_1.
    eapply Forall_impl; [exact Hfin|]. intros l [_ Hne]. simpl in Hne.
    unfold h. by rewrite deref_alter_ne. }
  destruct (tpb <=? time msg); unfold seg_refines; simpl.
  - split; [done|]. split; [rewrite length_app; simpl; lia|].
    split; [apply deref_app_new|].
    exists (fin ++ replicate (v_shared v) (current_bar_notes st)
              ++ [current_bar_notes st]).
    split; [by rewrite Hbars, app_nil_r, <- !app_assoc|].
    split.
    + rewrite length_app, Hlen. simpl.
      rewrite !Forall_app. repeat split.
      * eapply Forall_impl; [exact Hfin|]. intros l [Hl _]. simpl. lia.
      * apply Forall_replicate. lia.
      * apply Forall_singleton. lia.
    + rewrite !fmap_app, fmap_replicate. simpl.
      rewrite <- Hold, <- Hnew.
      f_equal; [|f_equal].
      * apply Forall_fmap_ext_1. eapply Forall_impl; [exact Hfin|].
        intros l [Hl _]. simpl. apply deref_app_l. lia.
      * f_equal. apply deref_app_l. lia.
      * f_equal. apply deref_app_l. lia.
  - split; [done|]. split; [lia|]. split; [done|].
    exists fin. split; [done|]. split; [|done].
    eapply Forall_impl; [exact Hfin|]. intros l [Hl Hne]. simpl. split; [lia|done].
Qed.

Lemma seg_refines_msgs tpb track : ∀ st v,
  seg_refines st v →
  seg_refines (foldl (process_msg tpb) st track) (foldl (v_msg tpb) v track).
Proof.
  induction track as [|msg track IH]; intros st v H; simpl; [done|].
  apply IH. by apply seg_refines_msg.
Qed.

Lemma seg_refines_flush st v :
  seg_refines st v → seg_refines (flush_track st) (v_flush v).
Proof.
  intros (Hprev & Hcur & Hval & fin & Hbars & Hfin & Hdone).
  unfold flush_track, v_flush. rewrite Hval.
  destruct (v_cur v) as [|tok toks] eqn:Hc.
  - repeat split; try done; [congruence | eauto].
  - repeat split; simpl; try done. exists fin.
    split; [|done].
    rewrite Hbars, <- app_assoc. f_equal.
    change [current_bar_notes st] with (replicate 1 (current_bar_notes st)).
    rewrite <- replicate_add.
    by replace (v_shared v + 1)%nat with (S (v_shared v)) by lia.
Qed.

Lemma seg_refines_track tpb st v track :
  seg_refines st v →
  seg_refines (process_track tpb st track) (v_track tpb v track).
Proof. intros H. by apply seg_refines_flush, seg_refines_msgs. Qed.

Lemma seg_refines_bars st v : seg_refines st v → bar_values st = v_bars v.
Proof.
  intros (_ & _ & Hval & fin & Hbars & _ & Hdone).
  unfold bar_values, v_bars.
  by rewrite Hbars, fmap_app, fmap_replicate, Hdone, Hval.
Qed.

(** The bars handed to the formatter, computed without a store. *)
Lemma segment_values tracks tpb :
  converted_bars tracks tpb = v_bars (foldl (v_track tpb) v_init tracks).
Proof.
  unfold converted_bars, segment. apply seg_refines_bars.
  generalize seg_refines_init. generalize seg_init v_init.
  induction tracks as [|track tracks IH]; intros st v H; simpl; [done|].
  apply IH. by apply seg_refines_track.
Qed.

(** ** Formatter *)

Lemma string_app_assoc (s1 s2 s3 : string) :
  (s1 +:+ s2) +:+ s3 = s1 +:+ s2 +:+ s3.
Proof.
  induction s1 as [|c s1 IH]; [done|].
  change (String c ((s1 +:+ s2) +:+ s3) = String c (s1 +:+ s2 +:+ s3)).
  by rewrite IH.
Qed.

Lemma string_app_empty_r (s : string) : s +:+ EmptyString = s.
Proof.
  induction s as [|c s IH]; [done|].
  change (String c (s +:+ EmptyString) = String c s). by rewrite IH.
Qed.

Lemma ordinals_lookup (i : nat) :
  (i < 7)%nat → ordinals !! i = Some (ordinal_word i).
Proof. intros Hi. do 7 (destruct i as [|i]; [done|]). lia. Qed.

Lemma ordinals_lookup_ge (i : nat) : (7 ≤ i)%nat → ordinals !! i = None.
Proof. intros Hi. by apply lookup_ge_None_2. Qed.

(** The two line texts of the formatter are the two literal lines. *)
Lemma lyric_line_text_rendered i lyric_line bar :
  lyric_line_text (ordinal_word i) lyric_line (String.concat " | " bar) =
    rendered_line i (Some lyric_line) bar.
Proof. reflexivity. Qed.

Lemma plain_line_text_rendered i bar :
  plain_line_text (ordinal_word i) (String.concat " | " bar) =
    rendered_line i None bar.
Proof. reflexivity. Qed.

Lemma header_text (n : nat) :
  header n = "Total " +:+ pretty n +:+ " lines." +:+ line_feed.
Proof. reflexivity. Qed.

(** The loop from index [i] on, when the indices stay below 7. *)
Lemma format_bars_returns bs : ∀ i lyrics result,
  (i + length bs ≤ 7)%nat →
  format_bars i bs lyrics result =
    (inr (result +:+
          join_lines (imap (λ j bar, rendered_line (i + j) (lyrics !! j) bar) bs)),
     drop (length bs) lyrics).
Proof.
  induction bs as [|bar bs IH]; intros i lyrics result Hi.
  - simpl. by rewrite string_app_empty_r, drop_0.
  - rewrite imap_cons. cbn [format_bars length join_lines foldr] in *.
    rewrite (ordinals_lookup i) by lia.
    destruct lyrics as [|lyric_line lyrics]; rewrite IH by lia.
    + rewrite plain_line_text_rendered, string_app_assoc, Nat.add_0_r,
        !drop_nil.
      replace (imap (λ j b, rendered_line (S i + j) ([] !! j) b) bs)
        with (imap ((λ j b, rendered_line (i + j) ([] !! j) b) ∘ S) bs);
        [done|].
      apply imap_ext. intros j b _. unfold compose. rewrite !lookup_nil.
      by replace (i + S j)%nat with (S i + j)%nat by lia.
    + rewrite lyric_line_text_rendered, string_app_assoc, Nat.add_0_r.
      replace (imap (λ j b, rendered_line (S i + j) (lyrics !! j) b) bs)
        with (imap ((λ j b, rendered_line (i + j)
                              ((lyric_line :: lyrics) !! j) b) ∘ S) bs);
        [done|].
      apply imap_ext. intros j b _. unfold compose.
      by replace (i + S j)%nat with (S i + j)%nat by lia.
Qed.

(** The loop from index [i] on, when it reaches index 7: the lookup fails
    there, after one [pop(0)] for each of the indices [i..7]. *)
Lemma format_bars_raises bs : ∀ i lyrics result,
  (i ≤ 7)%nat → (7 < i + length bs)%nat →
  format_bars i bs lyrics result = (inl IndexError, drop (8 - i) lyrics).
Proof.
  induction bs as [|bar bs IH]; intros i lyrics result Hi Hlen; simpl in *;
    [lia|].
  destruct (decide (i = 7%nat)) as [->|Hne].
  - by destruct lyrics.
  - rewrite (ordinals_lookup i) by lia.
    replace (8 - i)%nat with (S (8 - S i)) by lia.
    destruct lyrics as [|lyric_line lyrics]; rewrite IH by lia; [|done].
    by rewrite !drop_nil.
Qed.

Lemma format_returns bs lyrics :
  (length bs ≤ 7)%nat →
  format bs lyrics =
    (inr (header (length bs) +:+ join_lines (rendered_lines bs lyrics)),
     drop (length bs) lyrics).
Proof. intros H. unfold format. by rewrite format_bars_returns. Qed.

Lemma format_raises bs lyrics :
  (7 < length bs)%nat → format bs lyrics = (inl IndexError, drop 8 lyrics).
Proof. intros H. unfold format. by rewrite format_bars_raises by lia. Qed.

(** What is left of the caller's list, whether the call returns or raises. *)
Lemma lyrics_after_format bs lyrics :
  (format bs lyrics).2 = drop (length bs `min` 8) lyrics.
Proof.
  destruct (decide (length bs ≤ 7)%nat) as [H|H].
  - rewrite format_returns by done. simpl. f_equal. lia.
  - rewrite format_raises by lia. simpl. f_equal. lia.
Qed.

(** X11: whether the call returns or raises, what it leaves of the
    caller's lyric list is a suffix of it: one lyric is removed per bar,
    front to back, and none after the eighth. *)
Lemma lyrics_after_call tracks lyrics tpb :
  (midi_to_sc_format tracks lyrics tpb).2 =
    drop (length (converted_bars tracks tpb) `min` 8) lyrics.
Proof. apply lyrics_after_format. Qed.

Lemma rendered_lines_lookup bs lyrics i bar :
  bs !! i = Some bar →
  rendered_lines bs lyrics !! i = Some (rendered_line i (lyrics !! i) bar).
Proof.
  intros H. unfold rendered_lines. by rewrite list_lookup_imap, H.
Qed.

Lemma rendered_lines_length bs lyrics :
  length (rendered_lines bs lyrics) = length bs.
Proof. unfold rendered_lines. apply length_imap. Qed.

(** With at most 7 bars, line [i] is the literal line built from the
    [i]-th of the seven words, the [i]-th lyric if there is one, and the
    tokens of bar [i] joined by " | ". *)
Lemma rendered_lines_text bs lyrics i bar :
  (length bs ≤ 7)%nat → bs !! i = Some bar →
  ∃ word,
    [ "first"; "second"; "third"; "fourth"; "fifth"; "sixth"; "seventh" ]%string !! i
      = Some word
    ∧ rendered_lines bs lyrics !! i =
        Some (match lyrics !! i with
              | Some lyric_line =>
                  "The " +:+ word +:+ " line: " +:+ lyric_line +:+ ", "
                    +:+ String.concat " | " bar +:+ "," +:+ line_feed
              | None =>
                  "The " +:+ word +:+ " line: "
                    +:+ String.concat " | " bar +:+ "," +:+ line_feed
              end).
Proof.
  intros Hbs Hbar. pose proof (lookup_lt_Some _ _ _ Hbar) as Hi.
  exists (ordinal_word i). split.
  - apply (ordinals_lookup i). lia.
  - rewrite (rendered_lines_lookup bs lyrics i bar Hbar).
    by destruct (lyrics !! i).
Qed.

Lemma format_returns_text bs lyrics :
  (length bs ≤ 7)%nat →
  (format bs lyrics).1 =
    inr ("Total " +:+ pretty (length bs) +:+ " lines." +:+ line_feed
         +:+ join_lines (rendered_lines bs lyrics)).
Proof.
  intros Hbs. rewrite format_returns by done. simpl. f_equal.
  unfold header. by rewrite !string_app_assoc.
Qed.

(** C7: the conversion stops with IndexError exactly when it has produced
    more than 7 bars; with at most 7 bars it returns the header line
    followed by one line per bar, and the line of the bar at index [i] is
    written with the [i]-th of the seven words first..seventh: it reads
    "The <word> line: <lyric>, <notes>," or, without a lyric at [i],
    "The <word> line: <notes>,". *)
Theorem C7_ordinal_lookup_limit tracks lyrics tpb :
  ((midi_to_sc_format tracks lyrics tpb).1 = inl IndexError
     ↔ (7 < length (converted_bars tracks tpb))%nat)
  ∧ ((length (converted_bars tracks tpb) ≤ 7)%nat →
       (midi_to_sc_format tracks lyrics tpb).1 =
         inr ("Total " +:+ pretty (length (converted_bars tracks tpb))
              +:+ " lines." +:+ line_feed
              +:+ join_lines (rendered_lines (converted_bars tracks tpb) lyrics))
       ∧ length (rendered_lines (converted_bars tracks tpb) lyrics) =
           length (converted_bars tracks tpb)
       ∧ (∀ i bar, converted_bars tracks tpb !! i = Some bar →
            ∃ word,
              [ "first"; "second"; "third"; "fourth"; "fifth"; "sixth"; "seventh" ]%string !! i
                = Some word
              ∧ rendered_lines (converted_bars tracks tpb) lyrics !! i =
                  Some (match lyrics !! i with
                        | Some lyric_line =>
                            "The " +:+ word +:+ " line: " +:+ lyric_line
                              +:+ ", " +:+ String.concat " | " bar
                              +:+ "," +:+ line_feed
                        | None =>
                            "The " +:+ word +:+ " line: "
                              +:+ String.concat " | " bar
                              +:+ "," +:+ line_feed
                        end))).
Proof.
  unfold midi_to_sc_format. set (bs := converted_bars tracks tpb).
  split; [split|].
  - intros Hexn. destruct (decide (length bs ≤ 7)%nat) as [H|H]; [|lia].
    by rewrite format_returns in Hexn.
  - intros H. by rewrite format_raises.
  - intros H. split; [by apply format_returns_text|].
    split; [apply rendered_lines_length|].
    intros i bar. by apply rendered_lines_text.
Qed.

Lemma C7_ordinal_lookup_limit_witness :
  (midi_to_sc_format [ten_bars_track] nine_lyrics 480).1 = inl IndexError
  ∧ (midi_to_sc_format two_full_tracks nine_lyrics 480).1 =
      inr ("Total 2 lines." +:+ line_feed
           +:+ "The first line: l1, <C4>,<48>," +:+ line_feed
           +:+ "The second line: l2, <D4>,<79>," +:+ line_feed).
Proof.
  split.
  - apply (C7_ordinal_lookup_limit [ten_bars_track] nine_lyrics 480).
    vm_compute. lia.
  - apply (proj1 (proj2 (C7_ordinal_lookup_limit two_full_tracks nine_lyrics 480)
                    ltac:(vm_compute; lia))).
Defined.

(** ** Lyric consumption *)

(** C8, as stated, fails for ten bars and nine lyrics: fewer lyrics than
    bars, yet no line is rendered (the call raises) and one lyric is left
    in the list. *)
Lemma C8_lyrics_counterexample :
  (length nine_lyrics < length (converted_bars [ten_bars_track] 480))%nat
  ∧ (midi_to_sc_format [ten_bars_track] nine_lyrics 480).1 = inl IndexError
  ∧ (midi_to_sc_format [ten_bars_track] nine_lyrics 480).2 ≠ [].
Proof. split; [vm_compute; lia|]. split; by vm_compute. Qed.

(** C8, amended: when at most 7 bars are produced and the lyric list is
    shorter than the bar list, the call returns the header followed by one
    line per bar, where line [i] reads "The <word> line: <lyric>, <notes>,"
    with [lyrics[i]] for [i < len(lyrics)] and "The <word> line: <notes>,"
    from there on; and a lyric list with at most as many entries as there
    are bars, and at most 8, is empty after the call. *)
Theorem C8_lyrics_run_out tracks lyrics tpb :
  ((length (converted_bars tracks tpb) ≤ 7)%nat →
   (length lyrics < length (converted_bars tracks tpb))%nat →
     (midi_to_sc_format tracks lyrics tpb).1 =
       inr ("Total " +:+ pretty (length (converted_bars tracks tpb))
            +:+ " lines." +:+ line_feed
            +:+ join_lines (rendered_lines (converted_bars tracks tpb) lyrics))
     ∧ length (rendered_lines (converted_bars tracks tpb) lyrics) =
         length (converted_bars tracks tpb)
     ∧ ∀ i bar, converted_bars tracks tpb !! i = Some bar →
         ∃ word,
           [ "first"; "second"; "third"; "fourth"; "fifth"; "sixth"; "seventh" ]%string !! i
             = Some word
           ∧ ((i < length lyrics)%nat →
                ∃ lyric_line, lyrics !! i = Some lyric_line
                  ∧ rendered_lines (converted_bars tracks tpb) lyrics !! i =
                      Some ("The " +:+ word +:+ " line: " +:+ lyric_line
                              +:+ ", " +:+ String.concat " | " bar
                              +:+ "," +:+ line_feed))
           ∧ ((length lyrics ≤ i)%nat →
                rendered_lines (converted_bars tracks tpb) lyrics !! i =
                  Some ("The " +:+ word +:+ " line: "
                          +:+ String.concat " | " bar
                          +:+ "," +:+ line_feed)))
  ∧ ((length lyrics ≤ length (converted_bars tracks tpb))%nat →
     (length lyrics ≤ 8)%nat →
       (midi_to_sc_format tracks lyrics tpb).2 = []).
Proof.
  unfold midi_to_sc_format. set (bs := converted_bars tracks tpb). split.
  - intros Hbs Hshort. split; [by apply format_returns_text|].
    split; [apply rendered_lines_length|].
    intros i bar Hbar.
    destruct (rendered_lines_text bs lyrics i bar Hbs Hbar)
      as (word & Hword & Hline).
    exists word. split; [done|]. split.
    + intros Hi. destruct (lookup_lt_is_Some_2 lyrics i Hi) as [l Hl].
      exists l. by rewrite Hline, Hl.
    + intros Hi. by rewrite Hline, (lookup_ge_None_2 lyrics i Hi).
  - intros Hle Hle8. rewrite lyrics_after_format. apply drop_ge. lia.
Qed.

Lemma C8_lyrics_run_out_witness :
  (midi_to_sc_format two_full_tracks ["l1"%string] 480).1 =
    inr ("Total 2 lines." +:+ line_feed
         +:+ "The first line: l1, <C4>,<48>," +:+ line_feed
         +:+ "The second line: <D4>,<79>," +:+ line_feed)
  ∧ (midi_to_sc_format two_full_tracks ["l1"%string] 480).2 = []
  ∧ (midi_to_sc_format [ten_bars_track] (take 8 nine_lyrics) 480).2 = [].
Proof.
  destruct (C8_lyrics_run_out two_full_tracks ["l1"%string] 480)
    as [Hshort Hempty].
  split; [apply Hshort; vm_compute; lia|].
  split; [apply Hempty; vm_compute; lia|].
  apply (proj2 (C8_lyrics_run_out [ten_bars_track] (take 8 nine_lyrics) 480));
    vm_compute; lia.
Defined.




(** ** Segmenter *)

Lemma is_sounding_true (msg : Message) :
  is_sounding msg = true ↔ type msg = "note_on"%string ∧ 0 < velocity msg.
Proof.
  unfold is_sounding.
  rewrite andb_true_iff, bool_decide_eq_true, Z.ltb_lt. done.
Qed.


(** A segmented track read in isolation is the conversion of a file that
    holds this track only. *)
Lemma segment_track_alone tpb track :
  segment_track tpb track = converted_bars [track] tpb.
Proof. reflexivity. Qed.

Section silent.
Variable tpb : Z.

(** Events other than sounding note-ons only move [prev_time]. *)
Lemma v_msgs_silent track : ∀ v,
  Forall (λ msg, is_sounding msg = false) track →
  let v' := foldl (v_msg tpb) v track in
  v_cur v' = v_cur v ∧ v_done v' = v_done v ∧ v_shared v' = v_shared v.
Proof.
  induction track as [|msg track IH]; intros v Hq; simpl; [done|].
  inversion Hq as [|? ? Hmsg Htrack]; subst.
  destruct (IH (v_msg tpb v msg) Htrack) as (-> & -> & ->).
  unfold v_msg. by rewrite Hmsg.
Qed.

Lemma v_tracks_silent tracks : ∀ v,
  Forall (Forall (λ msg, is_sounding msg = false)) tracks →
  v_cur v = [] →
  let v' := foldl (v_track tpb) v tracks in
  v_cur v' = [] ∧ v_done v' = v_done v ∧ v_shared v' = v_shared v.
Proof.
  induction tracks as [|track tracks IH]; intros v Hq Hcur; simpl; [done|].
  inversion Hq as [|? ? Htrack Htracks]; subst.
  destruct (v_msgs_silent track v Htrack) as (Hc & Hd & Hs).
  assert (Hflush : v_track tpb v track = foldl (v_msg tpb) v track).
  { unfold v_track, v_flush. by rewrite Hc, Hcur. }
  destruct (IH (v_track tpb v track) Htracks) as (-> & -> & ->);
    rewrite Hflush; [congruence | done].
Qed.
End silent.



(** ** End-to-end scenario *)



(** ** Tracks and the current bar *)

Lemma token_count_app (bs1 bs2 : list (list string)) :
  token_count (bs1 ++ bs2) = (token_count bs1 + token_count bs2)%nat.
Proof. apply sum_list_with_app. Qed.

Lemma sounding_in_cons (msg : Message) (track : list Message) :
  sounding_in (msg :: track) =
    ((if is_sounding msg then 1 else 0) + sounding_in track)%nat.
Proof.
  unfold sounding_in. rewrite filter_cons.
  destruct (is_sounding msg); by case_decide.
Qed.

(** While no entry of [bars] refers to the current list, every sounding
    note-on adds one token, to the current list or to a finished bar. *)
Lemma v_msgs_token_count tpb track : ∀ v,
  v_shared v = 0%nat →
  let v' := foldl (v_msg tpb) v track in
  v_shared v' = 0%nat
  ∧ (token_count (v_done v') + length (v_cur v') =
     token_count (v_done v) + length (v_cur v) + sounding_in track)%nat.
Proof.
  induction track as [|msg track IH]; intros v Hs; simpl; [split; [done|]|].
  { unfold sounding_in. simpl. lia. }
  assert (Hstep : v_shared (v_msg tpb v msg) = 0%nat
    ∧ (token_count (v_done (v_msg tpb v msg)) + length (v_cur (v_msg tpb v msg))
       = token_count (v_done v) + length (v_cur v)
         + (if is_sounding msg then 1 else 0))%nat).
  { unfold v_msg. rewrite Hs.
    destruct (is_sounding msg); [|simpl; lia].
    destruct (tpb <=? time msg); simpl; [|rewrite length_app; simpl; lia].
    rewrite token_count_app. unfold token_count at 2. simpl.
    rewrite length_app. simpl. lia. }
  destruct Hstep as [Hs' Hcount].
  destruct (IH _ Hs') as [Hs'' Hcount'].
  split; [done|]. rewrite Hcount', Hcount, sounding_in_cons. lia.
Qed.

(** X6: on a file with a single track the token count is the number of
    sounding note-ons, whatever the number of bars. *)
Lemma single_track_token_count tpb track :
  token_count (converted_bars [track] tpb) = sounding_count [track].
Proof.
  rewrite segment_values. simpl. unfold v_track.
  destruct (v_msgs_token_count tpb track v_init eq_refl) as [Hs Hcount].
  simpl in Hcount. unfold sounding_count. simpl.
  rewrite Nat.add_0_r, <- Hcount.
  unfold v_flush, v_bars.
  destruct (v_cur (foldl (v_msg tpb) v_init track)) as [|tok toks] eqn:Hcur;
    simpl; rewrite Hs, ?Hcur; simpl.
  - rewrite app_nil_r. lia.
  - rewrite token_count_app. unfold token_count at 2. simpl. lia.
Qed.

(** C1 at the two-track file [two_tracks]: the second track appends to the
    list object that the first track has already put into [bars], and puts
    the same object into [bars] once more; segmenting the two tracks on
    their own gives one bar of one token each. *)
Theorem C1_tracks_share_current_bar :
  converted_bars two_tracks 480 =
    [ [ "<C4>,<79>"; "<D4>,<79>" ]; [ "<C4>,<79>"; "<D4>,<79>" ] ]%string
  ∧ concat (segment_track 480 <$> two_tracks) =
      [ [ "<C4>,<79>" ]; [ "<D4>,<79>" ] ]%string
  ∧ converted_bars two_tracks 480 ≠ concat (segment_track 480 <$> two_tracks).
Proof. split; [|split]; by vm_compute. Qed.

(** [prev_time] is carried from one track into the next as well. *)
Lemma tracks_share_prev_time :
  converted_bars two_full_tracks 480 =
    [ [ "<C4>,<48>" ]; [ "<D4>,<79>" ] ]%string
  ∧ concat (segment_track 480 <$> two_full_tracks) =
      [ [ "<C4>,<48>" ]; [ "<D4>,<48>" ] ]%string.
Proof. split; by vm_compute. Qed.

(** C2 at the two-track file [two_tracks]: two bars are returned, both the
    same two-token list, so four tokens stand for two sounding note-ons. *)
Theorem C2_shared_bar_counted_twice :
  (length (converted_bars two_tracks 480) ≤ 7)%nat
  ∧ sounding_count two_tracks = 2%nat
  ∧ token_count (converted_bars two_tracks 480) = 4%nat
  ∧ token_count (converted_bars two_tracks 480) ≠ sounding_count two_tracks.
Proof. split; [vm_compute; lia|]. split; [|split]; by vm_compute. Qed.

(** * Further properties of the conversion *)

(** ** Duration Quantizer: what a token says about the delta *)

(** X2: the two sentinel tokens and the fifty bucket tokens can be read
    back: 79 is returned exactly for deltas below 10, 512 exactly for
    deltas above 500, and a token k of 1..50 exactly for the deltas of
    10k..10k+9 that do not exceed 500. *)
Theorem quantizer_preimage (ticks : Z) :
  (convert_ticks_to_duration ticks = 79 ↔ ticks < 10)
  ∧ (convert_ticks_to_duration ticks = 512 ↔ 500 < ticks)
  ∧ ∀ k, 1 ≤ k ≤ 50 →
      (convert_ticks_to_duration ticks = k
         ↔ 10 * k ≤ ticks < 10 * k + 10 ∧ ticks ≤ 500).
Proof.
  unfold convert_ticks_to_duration.
  destruct (Z.ltb_spec ticks 10) as [Hlo|Hlo].
  { split; [done|]. split; [split; [done | lia]|].
    intros k Hk. split; lia. }
  destruct (Z.ltb_spec 500 ticks) as [Hhi|Hhi].
  { split; [split; [done | lia]|]. split; [done|].
    intros k Hk. split; lia. }
  rewrite Z.quot_div_nonneg by lia.
  assert (Hq : 1 ≤ ticks / 10 ≤ 50).
  { split; [apply Z.div_le_lower_bound | apply Z.div_le_upper_bound]; lia. }
  pose proof (Z.div_mod ticks 10 ltac:(lia)) as Hdm.
  pose proof (Z.mod_pos_bound ticks 10 ltac:(lia)) as Hm.
  split; [split; lia|]. split; [split; lia|].
  intros k Hk. split; [lia|].
  intros [[Hl Hu] _]. symmetry. apply (Z.div_unique ticks 10 k (ticks - 10 * k)); lia.
Qed.

Lemma quantizer_preimage_witness :
  convert_ticks_to_duration 237 = 23 ∧ convert_ticks_to_duration 500 = 50.
Proof.
  split.
  - apply (proj2 (proj2 (quantizer_preimage 237)) 23); lia.
  - apply (proj2 (proj2 (quantizer_preimage 500)) 50); lia.
Defined.

(** ** Segmenter: what every input keeps *)

Lemma token_count_replicate (k : nat) (bar : list string) :
  token_count (replicate k bar) = (k * length bar)%nat.
Proof. induction k as [|k IH]; simpl; [done | by rewrite IH]. Qed.

Lemma token_count_singleton (bar : list string) :
  token_count [bar] = length bar.
Proof. unfold token_count. simpl. lia. Qed.

Lemma v_msg_prev tpb v msg : v_prev (v_msg tpb v msg) = time msg.
Proof.
  unfold v_msg. destruct (is_sounding msg); [|done].
  by destruct (tpb <=? time msg).
Qed.

Lemma v_flush_prev v : v_prev (v_flush v) = v_prev v.
Proof. unfold v_flush. by destruct (v_cur v). Qed.

Lemma v_msg_nonempty tpb v msg :
  Forall (λ bar, bar ≠ []) (v_done v) →
  (v_shared v ≠ 0%nat → v_cur v ≠ []) →
  Forall (λ bar, bar ≠ []) (v_done (v_msg tpb v msg))
  ∧ (v_shared (v_msg tpb v msg) ≠ 0%nat → v_cur (v_msg tpb v msg) ≠ []).
Proof.
  intros Hdone Hcur. unfold v_msg.
  destruct (is_sounding msg); [|done].
  destruct (tpb <=? time msg); simpl.
  - split; [|done]. rewrite !Forall_app. split; [done|].
    split; [apply Forall_replicate | apply Forall_singleton];
      by destruct (v_cur v).
  - split; [done|]. intros _. by destruct (v_cur v).
Qed.

Lemma v_tracks_nonempty tpb tracks : ∀ v,
  Forall (λ bar, bar ≠ []) (v_done v) →
  (v_shared v ≠ 0%nat → v_cur v ≠ []) →
  Forall (λ bar, bar ≠ []) (v_bars (foldl (v_track tpb) v tracks)).
Proof.
  induction tracks as [|track tracks IH]; intros v Hdone Hcur; simpl.
  - unfold v_bars. rewrite Forall_app. split; [done|].
    destruct (v_shared v); [constructor|]. apply Forall_replicate. by apply Hcur.
  - assert (Hmsgs : ∀ w,
      Forall (λ bar, bar ≠ []) (v_done w) →
      (v_shared w ≠ 0%nat → v_cur w ≠ []) →
      Forall (λ bar, bar ≠ []) (v_done (foldl (v_msg tpb) w track))
      ∧ (v_shared (foldl (v_msg tpb) w track) ≠ 0%nat →
           v_cur (foldl (v_msg tpb) w track) ≠ [])).
    { clear. induction track as [|msg track IH]; intros w Hd Hc; simpl; [done|].
      destruct (v_msg_nonempty tpb w msg Hd Hc) as [Hd' Hc']. by apply IH. }
    destruct (Hmsgs v Hdone Hcur) as [Hd Hc].
    apply IH; unfold v_track, v_flush;
      destruct (v_cur (foldl (v_msg tpb) v track)) eqn:Hcur'; simpl;
      try done.
    by rewrite Hcur'.
Qed.

(** X3: whatever the input, no returned bar is empty; every line of the
    text holds at least one note token. *)
Theorem bars_never_empty tracks tpb :
  Forall (λ bar, bar ≠ []) (converted_bars tracks tpb).
Proof. rewrite segment_values. by apply v_tracks_nonempty. Qed.

Lemma v_msg_no_loss tpb v msg :
  (token_count (v_done v) + length (v_cur v)
     + (if is_sounding msg then 1 else 0)
   ≤ token_count (v_done (v_msg tpb v msg))
     + length (v_cur (v_msg tpb v msg)))%nat.
Proof.
  unfold v_msg. destruct (is_sounding msg); [|simpl; lia].
  destruct (tpb <=? time msg); simpl.
  - rewrite !token_count_app, token_count_replicate, token_count_singleton,
      length_app. simpl. lia.
  - rewrite length_app. simpl. lia.
Qed.

Lemma v_msgs_no_loss tpb track : ∀ v,
  (token_count (v_done v) + length (v_cur v) + sounding_in track
   ≤ token_count (v_done (foldl (v_msg tpb) v track))
     + length (v_cur (foldl (v_msg tpb) v track)))%nat.
Proof.
  induction track as [|msg track IH]; intros v; simpl.
  - unfold sounding_in. simpl. lia.
  - pose proof (v_msg_no_loss tpb v msg). pose proof (IH (v_msg tpb v msg)).
    rewrite sounding_in_cons. lia.
Qed.

Lemma v_tracks_no_loss tpb tracks : ∀ v,
  (v_cur v = [] ∨ v_shared v ≠ 0%nat) →
  let v' := foldl (v_track tpb) v tracks in
  (v_cur v' = [] ∨ v_shared v' ≠ 0%nat)
  ∧ (token_count (v_done v) + length (v_cur v) + sounding_count tracks
     ≤ token_count (v_done v') + length (v_cur v'))%nat.
Proof.
  induction tracks as [|track tracks IH]; intros v Hv; simpl.
  - split; [done|]. unfold sounding_count. simpl. lia.
  - pose proof (v_msgs_no_loss tpb track v) as Hstep.
    assert (Hflush : (v_cur (v_track tpb v track) = []
                      ∨ v_shared (v_track tpb v track) ≠ 0%nat)
      ∧ v_done (v_track tpb v track) = v_done (foldl (v_msg tpb) v track)
      ∧ v_cur (v_track tpb v track) = v_cur (foldl (v_msg tpb) v track)).
    { unfold v_track, v_flush.
      destruct (v_cur (foldl (v_msg tpb) v track)) eqn:Hc; simpl; auto. }
    destruct Hflush as (Hinv & Hd & Hc).
    destruct (IH _ Hinv) as [Hinv' Hcount]. split; [done|].
    rewrite Hd, Hc in Hcount. unfold sounding_count in *. simpl. lia.
Qed.

Lemma v_bars_no_loss tpb tracks :
  (sounding_count tracks
   ≤ token_count (v_bars (foldl (v_track tpb) v_init tracks)))%nat.
Proof.
  destruct (v_tracks_no_loss tpb tracks v_init (or_introl eq_refl))
    as [Hinv Hcount].
  simpl in Hcount. unfold v_bars.
  rewrite token_count_app, token_count_replicate.
  destruct Hinv as [Hc|Hs].
  - rewrite Hc in *. simpl in *. lia.
  - destruct (v_shared _); [done|]. lia.
Qed.

(** X4: whatever the input, no sounding note-on is dropped: the bars hold
    at least as many tokens as the input has note-ons with velocity > 0. *)
Theorem no_token_lost tracks tpb :
  (sounding_count tracks ≤ token_count (converted_bars tracks tpb))%nat.
Proof. rewrite segment_values. apply v_bars_no_loss. Qed.

Lemma sounding_in_zero (track : list Message) :
  sounding_in track = 0%nat ↔ Forall (λ msg, is_sounding msg = false) track.
Proof.
  induction track as [|msg track IH]; [by split|].
  rewrite sounding_in_cons, Forall_cons, <- IH.
  destruct (is_sounding msg); split; try lia; try done; intros [? ?]; done.
Qed.

Lemma sounding_count_zero (tracks : list (list Message)) :
  sounding_count tracks = 0%nat
  ↔ Forall (Forall (λ msg, is_sounding msg = false)) tracks.
Proof.
  induction tracks as [|track tracks IH]; [by split|].
  rewrite Forall_cons, <- IH, <- sounding_in_zero.
  unfold sounding_count. simpl. lia.
Qed.

(** X5: the conversion produces no bar at all exactly when the input has
    no note-on with velocity > 0. *)
Theorem no_bars_iff_no_sounding tracks tpb :
  converted_bars tracks tpb = [] ↔ sounding_count tracks = 0%nat.
Proof.
  split.
  - intros Hbars. pose proof (v_bars_no_loss tpb tracks) as Hcount.
    rewrite <- segment_values, Hbars in Hcount. simpl in Hcount.
    unfold token_count in Hcount. simpl in Hcount. lia.
  - rewrite sounding_count_zero. intros Hsilent.
    rewrite segment_values. unfold v_bars.
    by destruct (v_tracks_silent tpb tracks v_init Hsilent eq_refl)
      as (-> & -> & ->).
Qed.

(** ** Segmenter: one track *)

Lemma v_msgs_tokens tpb track : ∀ v,
  v_shared v = 0%nat →
  concat (v_done (foldl (v_msg tpb) v track))
    ++ v_cur (foldl (v_msg tpb) v track)
  = concat (v_done v) ++ v_cur v ++ stream_tokens (v_prev v) track.
Proof.
  induction track as [|msg track IH]; intros v Hs; simpl.
  - by rewrite app_nil_r.
  - assert (Hs' : v_shared (v_msg tpb v msg) = 0%nat).
    { unfold v_msg. destruct (is_sounding msg); [|done].
      by destruct (tpb <=? time msg). }
    rewrite (IH _ Hs'), v_msg_prev, !app_assoc. f_equal.
    unfold v_msg. rewrite Hs. destruct (is_sounding msg); simpl.
    + destruct (tpb <=? time msg); simpl; [|by rewrite app_assoc].
      rewrite concat_app, app_nil_r. simpl. by rewrite app_nil_r, app_assoc.
    + by rewrite app_nil_r.
Qed.

Lemma v_single_track tpb track :
  let v := foldl (v_msg tpb) v_init track in
  converted_bars [track] tpb =
    v_done v ++ match v_cur v with [] => [] | _ :: _ => [v_cur v] end.
Proof.
  rewrite segment_values. simpl. unfold v_track.
  destruct (v_msgs_token_count tpb track v_init eq_refl) as [Hs _].
  unfold v_flush, v_bars.
  destruct (v_cur (foldl (v_msg tpb) v_init track)) eqn:Hcur; simpl;
    by rewrite Hs, ?Hcur.
Qed.

(** X7: on a single-track file the bars, read one after the other, are
    the tokens of the sounding note-ons in stream order: segmentation only
    cuts the token sequence, it drops, repeats or reorders nothing. *)
Theorem single_track_tokens_in_order tpb track :
  concat (converted_bars [track] tpb) = stream_tokens 0 track.
Proof.
  rewrite v_single_track. simpl.
  pose proof (v_msgs_tokens tpb track v_init eq_refl) as Htok.
  simpl in Htok. rewrite <- Htok, concat_app.
  destruct (v_cur (foldl (v_msg tpb) v_init track)); simpl;
    by rewrite ?app_nil_r.
Qed.

Lemma closes_bar_sounding tpb msg :
  closes_bar tpb msg = true → is_sounding msg = true.
Proof. unfold closes_bar. by intros [? _]%andb_true_iff. Qed.

Lemma v_msgs_bars tpb track : ∀ v,
  v_shared v = 0%nat →
  let v' := foldl (v_msg tpb) v track in
  length (v_done v') =
    (length (v_done v)
     + length (filter (λ msg, closes_bar tpb msg = true) track))%nat
  ∧ (v_cur v' = [] ↔
       match last_sounding track with
       | Some msg => (tpb <=? time msg) = true
       | None => v_cur v = []
       end).
Proof.
  induction track as [|msg track IH]; intros v Hs; simpl.
  - split; [lia | done].
  - assert (Hs' : v_shared (v_msg tpb v msg) = 0%nat).
    { unfold v_msg. destruct (is_sounding msg); [|done].
      by destruct (tpb <=? time msg). }
    destruct (IH _ Hs') as [Hlen Hcur]. clear IH.
    unfold last_sounding in *. rewrite Hlen, Hcur. clear Hlen Hcur.
    destruct (is_sounding msg) eqn:Hsnd.
    + rewrite (filter_cons_True (λ m, is_sounding m = true)) by done.
      rewrite last_cons. unfold v_msg. rewrite Hs, Hsnd.
      destruct (tpb <=? time msg) eqn:Htrig.
      * rewrite (filter_cons_True (λ m, closes_bar tpb m = true))
          by (unfold closes_bar; by rewrite Hsnd, Htrig).
        simpl. rewrite length_app. simpl.
        split; [lia|]. by destruct (last (filter _ track)); split.
      * rewrite (filter_cons_False (λ m, closes_bar tpb m = true))
          by (unfold closes_bar; by rewrite Hsnd, Htrig).
        simpl. split; [done|].
        destruct (last (filter _ track)); [done|].
        rewrite Htrig. split; [by destruct (v_cur v) | done].
    + rewrite (filter_cons_False (λ m, is_sounding m = true))
        by (by rewrite Hsnd).
      rewrite (filter_cons_False (λ m, closes_bar tpb m = true))
        by (unfold closes_bar; by rewrite Hsnd).
      unfold v_msg. by rewrite Hsnd.
Qed.

(** X8: on a single-track file the number of bars is the number of
    sounding note-ons whose time field reaches [ticks_per_bar], plus one
    when the last sounding note-on does not reach it. *)
Theorem single_track_bar_count tpb track :
  length (converted_bars [track] tpb) =
    (length (filter (λ msg, closes_bar tpb msg = true) track)
     + (if ends_open tpb track then 1 else 0))%nat.
Proof.
  rewrite v_single_track. simpl.
  destruct (v_msgs_bars tpb track v_init eq_refl) as [Hlen Hcur].
  simpl in Hlen, Hcur. rewrite length_app, Hlen. f_equal.
  unfold ends_open.
  destruct (last_sounding track) as [m|];
    destruct (v_cur (foldl (v_msg tpb) v_init track)) as [|tok toks];
    simpl; try done.
  - by rewrite (proj1 Hcur eq_refl).
  - destruct (tpb <=? time m); [|done]. by pose proof (proj2 Hcur eq_refl).
  - by pose proof (proj2 Hcur eq_refl).
Qed.

Lemma stream_tokens_length (track : list Message) : ∀ prev,
  length (stream_tokens prev track) = sounding_in track.
Proof.
  induction track as [|msg track IH]; intros prev; simpl; [done|].
  rewrite length_app, IH, sounding_in_cons. by destruct (is_sounding msg).
Qed.

(** X10: a single track in which no sounding note-on reaches
    [ticks_per_bar] is never cut: all its tokens form one bar (and there
    is no bar when it has no sounding note-on). *)
Theorem single_track_without_trigger tpb track :
  (∀ msg, msg ∈ track → is_sounding msg = true → time msg < tpb) →
  converted_bars [track] tpb =
    match stream_tokens 0 track with
    | [] => []
    | _ :: _ => [stream_tokens 0 track]
    end.
Proof.
  intros Hopen. rewrite v_single_track. simpl.
  destruct (v_msgs_bars tpb track v_init eq_refl) as [Hlen _].
  pose proof (v_msgs_tokens tpb track v_init eq_refl) as Htok.
  simpl in Hlen, Htok.
  assert (Hnone : filter (λ msg, closes_bar tpb msg = true) track = []).
  { clear -Hopen. induction track as [|msg track IH]; [done|].
    rewrite filter_cons_False.
    - apply IH. intros m Hm. apply Hopen. by right.
    - unfold closes_bar. intros [Hsnd Htrig%Z.leb_le]%andb_true_iff.
      pose proof (Hopen msg ltac:(by left) Hsnd). lia. }
  rewrite Hnone in Hlen. apply nil_length_inv in Hlen.
  rewrite Hlen in *. simpl in *. by rewrite Htok.
Qed.

Lemma single_track_without_trigger_witness :
  converted_bars [[note_on 60 64 0; note_on 62 64 240]] 480 =
    [stream_tokens 0 [note_on 60 64 0; note_on 62 64 240]].
Proof.
  apply (single_track_without_trigger 480 [note_on 60 64 0; note_on 62 64 240]).
  intros msg Hm _.
  repeat (apply elem_of_cons in Hm as [->|Hm]); simpl; try lia.
  by apply elem_of_nil in Hm.
Defined.

(** ** Segmenter: several tracks *)

Lemma v_msgs_closing tpb track : ∀ v,
  Forall (λ msg, is_sounding msg = true → tpb ≤ time msg) track →
  v_cur v = [] → v_shared v = 0%nat →
  Forall (λ bar, length bar = 1%nat) (v_done v) →
  let v' := foldl (v_msg tpb) v track in
  v_cur v' = [] ∧ v_shared v' = 0%nat
  ∧ Forall (λ bar, length bar = 1%nat) (v_done v')
  ∧ length (v_done v') = (length (v_done v) + sounding_in track)%nat.
Proof.
  induction track as [|msg track IH]; intros v Hall Hc Hs Hd; simpl.
  - unfold sounding_in. simpl. repeat split; first [done | lia].
  - inversion Hall as [|? ? Hmsg Htrack]; subst.
    rewrite sounding_in_cons.
    assert (Hstep : v_cur (v_msg tpb v msg) = []
      ∧ v_shared (v_msg tpb v msg) = 0%nat
      ∧ Forall (λ bar, length bar = 1%nat) (v_done (v_msg tpb v msg))
      ∧ length (v_done (v_msg tpb v msg)) =
          (length (v_done v) + (if is_sounding msg then 1 else 0))%nat).
    { unfold v_msg. destruct (is_sounding msg) eqn:Hsnd.
      - assert (Htrig : (tpb <=? time msg) = true) by (apply Z.leb_le; auto).
        rewrite Htrig, Hs, Hc. simpl. rewrite length_app. simpl.
        repeat split; first [done | lia | idtac].
        rewrite Forall_app. split; [done|]. by apply Forall_singleton.
      - simpl. repeat split; first [done | lia]. }
    destruct Hstep as (Hc1 & Hs1 & Hd1 & Hlen1).
    destruct (IH _ Htrack Hc1 Hs1 Hd1) as (Hc' & Hs' & Hd' & Hlen).
    repeat split; try done. rewrite Hlen, Hlen1. lia.
Qed.

Lemma v_tracks_closing tpb tracks : ∀ v,
  Forall (Forall (λ msg, is_sounding msg = true → tpb ≤ time msg)) tracks →
  v_cur v = [] → v_shared v = 0%nat →
  Forall (λ bar, length bar = 1%nat) (v_done v) →
  let v' := foldl (v_track tpb) v tracks in
  v_cur v' = [] ∧ v_shared v' = 0%nat
  ∧ Forall (λ bar, length bar = 1%nat) (v_done v')
  ∧ length (v_done v') = (length (v_done v) + sounding_count tracks)%nat.
Proof.
  induction tracks as [|track tracks IH]; intros v Hall Hc Hs Hd; simpl.
  - unfold sounding_count. simpl. repeat split; first [done | lia].
  - inversion Hall as [|? ? Htrack Htracks]; subst.
    destruct (v_msgs_closing tpb track v Htrack Hc Hs Hd)
      as (Hc' & Hs' & Hd' & Hlen).
    assert (Hflush : v_track tpb v track = foldl (v_msg tpb) v track).
    { unfold v_track, v_flush. by rewrite Hc'. }
    rewrite Hflush.
    destruct (IH _ Htracks Hc' Hs' Hd') as (Hc'' & Hs'' & Hd'' & Hlen').
    repeat split; try done. rewrite Hlen', Hlen.
    unfold sounding_count. simpl. lia.
Qed.

(** X9: when every sounding note-on of the input reaches [ticks_per_bar]
    (as with a non-positive [ticks_per_bar] and non-negative time fields),
    each note gets a bar of its own: every bar holds exactly one token and
    there are as many bars as sounding note-ons, over all tracks. *)
Theorem closing_notes_one_per_bar tracks tpb :
  (∀ track msg, track ∈ tracks → msg ∈ track →
     is_sounding msg = true → tpb ≤ time msg) →
  Forall (λ bar, length bar = 1%nat) (converted_bars tracks tpb)
  ∧ length (converted_bars tracks tpb) = sounding_count tracks.
Proof.
  intros Hall.
  assert (Hall' : Forall (Forall (λ msg, is_sounding msg = true → tpb ≤ time msg))
                    tracks).
  { apply Forall_forall. intros track Ht. apply Forall_forall. intros msg Hm.
    by apply Hall with track. }
  destruct (v_tracks_closing tpb tracks v_init Hall' eq_refl eq_refl
              ltac:(constructor)) as (Hc & Hs & Hd & Hlen).
  rewrite segment_values. unfold v_bars. rewrite Hs, Hc. simpl.
  by rewrite app_nil_r.
Qed.

Lemma closing_notes_one_per_bar_witness :
  length (converted_bars [ten_bars_track; ten_bars_track] 480) = 20%nat.
Proof.
  apply (closing_notes_one_per_bar [ten_bars_track; ten_bars_track] 480).
  intros track msg Ht Hm _.
  assert (Htrack : track = ten_bars_track).
  { repeat (apply elem_of_cons in Ht as [->|Ht]); try done.
    by apply elem_of_nil in Ht. }
  subst track. apply elem_of_replicate in Hm as [-> _]. simpl. lia.
Defined.

Lemma v_msgs_prev tpb track : ∀ v,
  v_prev (foldl (v_msg tpb) v track) = default (v_prev v) (time <$> last track).
Proof.
  induction track as [|msg track IH]; intros v; simpl; [done|].
  rewrite IH, v_msg_prev, last_cons. by destruct (last track).
Qed.

Lemma v_tracks_prev tpb tracks : ∀ v,
  v_prev (foldl (v_track tpb) v tracks) =
    default (v_prev v) (time <$> last (concat tracks)).
Proof.
  induction tracks as [|track tracks IH]; intros v; simpl; [done|].
  rewrite IH. unfold v_track. rewrite v_flush_prev, v_msgs_prev, last_app.
  by destruct (last (concat tracks)).
Qed.

(** X15: leading tracks without any sounding note-on (a tempo or meta
    track, an empty track) do not change the result, provided the last
    event before the first remaining track has time field 0. *)
Theorem leading_silent_tracks pre tracks lyrics tpb :
  (∀ track msg, track ∈ pre → msg ∈ track →
     ¬ (type msg = "note_on"%string ∧ 0 < velocity msg)) →
  (∀ msg, last (concat pre) = Some msg → time msg = 0) →
  midi_to_sc_format (pre ++ tracks) lyrics tpb =
    midi_to_sc_format tracks lyrics tpb.
Proof.
  intros Hq Hlast.
  assert (Hsilent : Forall (Forall (λ msg, is_sounding msg = false)) pre).
  { apply Forall_forall. intros track Ht. apply Forall_forall. intros msg Hm.
    apply not_true_is_false. rewrite is_sounding_true. by apply Hq with track. }
  unfold midi_to_sc_format. f_equal.
  rewrite !segment_values, foldl_app. do 2 f_equal.
  destruct (v_tracks_silent tpb pre v_init Hsilent eq_refl) as (Hc & Hd & Hs).
  pose proof (v_tracks_prev tpb pre v_init) as Hp.
  destruct (foldl (v_track tpb) v_init pre) as [p c d s].
  simpl in *. subst c d s. unfold v_init. f_equal.
  rewrite Hp. destruct (last (concat pre)) as [m|] eqn:Hm; [|done].
  simpl. by apply Hlast.
Qed.

Lemma leading_silent_tracks_witness :
  midi_to_sc_format
    ([ [mkMessage "set_tempo" 0 0 0; mkMessage "end_of_track" 0 0 0]; [] ]
       ++ two_tracks) nine_lyrics 480
  = midi_to_sc_format two_tracks nine_lyrics 480.
Proof.
  apply leading_silent_tracks.
  - intros track msg Ht Hm [Htype _].
    repeat (apply elem_of_cons in Ht as [->|Ht]);
      repeat (apply elem_of_cons in Hm as [->|Hm]);
      try (by apply elem_of_nil in Hm); try (by apply elem_of_nil in Ht);
      simpl in *; discriminate.
  - intros msg Hm. simpl in Hm. by injection Hm as <-.
Defined.

(** ** What the conversion reads of an event *)

Lemma process_msg_fields tpb st (msg msg' : Message) :
  is_sounding msg' = is_sounding msg →
  time msg' = time msg →
  (is_sounding msg = true → note msg' = note msg) →
  process_msg tpb st msg' = process_msg tpb st msg.
Proof.
  intros Hsnd Htime Hnote. unfold process_msg. rewrite Hsnd, Htime.
  destruct (is_sounding msg); [|done]. by rewrite Hnote.
Qed.

(** X12: the text depends on an event only through three things: whether
    it is a note-on with velocity > 0, its time field, and, for such a
    note-on, its note number. Two inputs with the same tracks, event for
    event, up to these three give the same result: other velocities above
    0, other message types or fields for the rest change nothing. *)
Theorem conversion_ignores_other_fields
    (tracks tracks' : list (list Message)) (lyrics : list string) (tpb : Z) :
  Forall2 (Forall2 (λ msg msg',
     ((type msg' = "note_on"%string ∧ 0 < velocity msg')
        ↔ (type msg = "note_on"%string ∧ 0 < velocity msg))
     ∧ time msg' = time msg
     ∧ (type msg = "note_on"%string ∧ 0 < velocity msg →
          note msg' = note msg))) tracks tracks' →
  midi_to_sc_format tracks' lyrics tpb = midi_to_sc_format tracks lyrics tpb.
Proof.
  intros Hsame. unfold midi_to_sc_format, converted_bars, segment.
  do 2 f_equal. generalize seg_init.
  induction Hsame as [|track track' tracks tracks' Htrack _ IH]; intros st;
    simpl; [done|].
  rewrite IH. f_equal. unfold process_track. f_equal. clear IH.
  revert st.
  induction Htrack as [|msg msg' track track' Hmsg _ IH]; intros st;
    simpl; [done|].
  rewrite IH. f_equal.
  destruct Hmsg as (Hsnd & Htime & Hnote).
  apply process_msg_fields; [|done|].
  - rewrite <- !is_sounding_true in Hsnd.
    destruct (is_sounding msg), (is_sounding msg'); try done.
    + by pose proof (proj2 Hsnd eq_refl).
    + by pose proof (proj1 Hsnd eq_refl).
  - intros Hm. by apply Hnote, is_sounding_true.
Qed.

Lemma conversion_ignores_other_fields_witness :
  midi_to_sc_format
    [ [ mkMessage "note_on" 60 1 0; mkMessage "note_on" 60 127 0;
        mkMessage "control_change" 7 0 30 ] ] nine_lyrics 480
  = midi_to_sc_format
      [ [ note_on 60 64 0; note_on 60 64 0; mkMessage "note_off" 60 64 30 ] ]
      nine_lyrics 480.
Proof.
  apply conversion_ignores_other_fields.
  constructor; [|constructor].
  constructor; [|constructor; [|constructor; [|constructor]]]; simpl;
    (split;
       [ split; intros [Htype Hvel];
           first [discriminate Htype | split; [reflexivity | lia]]
       | split; [reflexivity|];
         intros [Htype Hvel]; first [discriminate Htype | reflexivity] ]).
Defined.

(** ** The shape of tokens and of the text *)

(** A property of the 32 names and of "Unknown" holds of every name. *)
Lemma note_name_forall (P : string → Prop) :
  P "Unknown"%string → Forall P (note_names_items.*2) →
  ∀ n, P (midi_note_to_name n).
Proof.
  intros Hunknown Hnames n. unfold midi_note_to_name.
  destruct (note_names !! n) as [name|] eqn:Hn; simpl; [|done].
  apply elem_of_list_to_map_2 in Hn.
  apply (proj1 (Forall_forall _ _) Hnames).
  apply list_elem_of_fmap. by exists (n, name).
Qed.

(** A property of 79, 512 and 1..50 holds of every duration token. *)
Lemma duration_forall (P : Z → Prop) :
  Forall P (79 :: 512 :: seqZ 1 50) →
  ∀ ticks, P (convert_ticks_to_duration ticks).
Proof.
  intros Hall ticks. apply (proj1 (Forall_forall _ _) Hall).
  unfold convert_ticks_to_duration.
  destruct (Z.ltb_spec ticks 10); [by left|].
  destruct (Z.ltb_spec 500 ticks); [by right; left|].
  right; right. rewrite Z.quot_div_nonneg by lia. apply elem_of_seqZ.
  split; [apply Z.div_le_lower_bound | apply Z.div_lt_upper_bound]; lia.
Qed.

Lemma v_tokens_forall (P : string → Prop) tpb tracks :
  (∀ n ticks,
     P (note_token (midi_note_to_name n) (convert_ticks_to_duration ticks))) →
  ∀ v, Forall P (v_cur v) → Forall (Forall P) (v_done v) →
  Forall (Forall P) (v_bars (foldl (v_track tpb) v tracks)).
Proof.
  intros HP.
  assert (Hmsg : ∀ v msg, Forall P (v_cur v) → Forall (Forall P) (v_done v) →
    Forall P (v_cur (v_msg tpb v msg))
    ∧ Forall (Forall P) (v_done (v_msg tpb v msg))).
  { intros v msg Hc Hd. unfold v_msg.
    destruct (is_sounding msg); [|done].
    assert (Forall P (v_cur v ++
      [note_token (midi_note_to_name (note msg))
         (convert_ticks_to_duration (time msg - v_prev v))])).
    { rewrite Forall_app. split; [done|]. by apply Forall_singleton. }
    destruct (tpb <=? time msg); simpl; [|done].
    split; [constructor|]. rewrite !Forall_app. split; [done|].
    split; [by apply Forall_replicate | by apply Forall_singleton]. }
  assert (Hmsgs : ∀ track v, Forall P (v_cur v) → Forall (Forall P) (v_done v) →
    Forall P (v_cur (foldl (v_msg tpb) v track))
    ∧ Forall (Forall P) (v_done (foldl (v_msg tpb) v track))).
  { induction track as [|msg track IH]; intros v Hc Hd; simpl; [done|].
    destruct (Hmsg v msg Hc Hd). by apply IH. }
  induction tracks as [|track tracks IH]; intros v Hc Hd; simpl.
  - unfold v_bars. rewrite Forall_app. split; [done|]. by apply Forall_replicate.
  - destruct (Hmsgs track v Hc Hd) as [Hc' Hd'].
    apply IH; unfold v_track, v_flush;
      destruct (v_cur (foldl (v_msg tpb) v track)) eqn:Hcur; simpl;
      by rewrite ?Hcur.
Qed.

(** X16: every string of every returned bar is a token of the literal
    shape "<name>,<d>", where the name is one of the 32 note names or
    "Unknown" and d is the decimal writing of 79, 512 or a number of
    1..50. *)
Theorem bars_hold_tokens tracks tpb :
  Forall (Forall (λ tok, ∃ name d,
            tok = "<" +:+ name +:+ ">,<" +:+ pretty d +:+ ">"
            ∧ (name = "Unknown"%string ∨ name ∈ note_names_items.*2)
            ∧ (d = 79 ∨ d = 512 ∨ 1 ≤ d ≤ 50)))
    (converted_bars tracks tpb).
Proof.
  rewrite segment_values. apply v_tokens_forall; [|done|done].
  intros n ticks.
  exists (midi_note_to_name n), (convert_ticks_to_duration ticks).
  split; [reflexivity|]. split.
  - apply (note_name_forall
             (λ name, name = "Unknown"%string ∨ name ∈ note_names_items.*2));
      [by left|].
    apply Forall_forall. intros name Hname. by right.
  - apply (duration_forall (λ d, d = 79 ∨ d = 512 ∨ 1 ≤ d ≤ 50)).
    do 2 (apply Forall_cons; split; [lia|]).
    apply Forall_forall. intros d Hd%elem_of_seqZ. lia.
Qed.

Lemma split_at_char (c : Ascii.ascii) (s1 : string) : ∀ s2 r1 r2,
  occurs c s1 = false → occurs c s2 = false →
  s1 +:+ String c r1 = s2 +:+ String c r2 → s1 = s2 ∧ r1 = r2.
Proof.
  induction s1 as [|a s1 IH]; intros [|b s2] r1 r2 H1 H2 Heq.
  - by injection Heq.
  - change (String c r1 = String b (s2 +:+ String c r2)) in Heq.
    injection Heq as <- _. simpl in H2. by rewrite bool_decide_eq_true_2 in H2.
  - change (String a (s1 +:+ String c r1) = String c r2) in Heq.
    injection Heq as -> _. simpl in H1. by rewrite bool_decide_eq_true_2 in H1.
  - change (String a (s1 +:+ String c r1) = String b (s2 +:+ String c r2))
      in Heq.
    injection Heq as -> Heq. simpl in H1, H2.
    apply orb_false_iff in H1 as [_ H1]. apply orb_false_iff in H2 as [_ H2].
    destruct (IH _ _ _ H1 H2 Heq) as [-> ->]. done.
Qed.

Lemma name_without_bracket (n : Z) :
  occurs (Ascii.ascii_of_nat 62) (midi_note_to_name n) = false.
Proof.
  apply (note_name_forall (λ name, occurs (Ascii.ascii_of_nat 62) name = false));
    [done | compute_done].
Qed.

Lemma duration_without_bracket (ticks : Z) :
  occurs (Ascii.ascii_of_nat 62) (pretty (convert_ticks_to_duration ticks))
    = false.
Proof.
  apply (duration_forall
           (λ d, occurs (Ascii.ascii_of_nat 62) (pretty d) = false)).
  compute_done.
Qed.

(** X14: a token can be read back: two tokens produced by the conversion
    are equal only if they carry the same note name and the same duration
    token. *)
Theorem note_token_decodes (n m ticks ticks' : Z) :
  note_token (midi_note_to_name n) (convert_ticks_to_duration ticks) =
    note_token (midi_note_to_name m) (convert_ticks_to_duration ticks') →
  midi_note_to_name n = midi_note_to_name m
  ∧ convert_ticks_to_duration ticks = convert_ticks_to_duration ticks'.
Proof.
  unfold note_token. intros Heq.
  injection Heq as Heq.
  apply (split_at_char (Ascii.ascii_of_nat 62)) in Heq
    as [Hname Heq]; [|apply name_without_bracket..].
  split; [done|].
  injection Heq as Heq.
  apply (split_at_char (Ascii.ascii_of_nat 62) _ _ EmptyString EmptyString)
    in Heq as [Hd _]; [|apply duration_without_bracket..].
  by apply (inj pretty).
Qed.

Lemma note_token_decodes_witness :
  midi_note_to_name 60 = midi_note_to_name 60
  ∧ convert_ticks_to_duration 481 = convert_ticks_to_duration 489.
Proof. by apply (note_token_decodes 60 60 481 489). Defined.

Lemma newlines_app (s1 s2 : string) :
  newlines (s1 +:+ s2) = (newlines s1 + newlines s2)%nat.
Proof.
  induction s1 as [|c s1 IH]; [done|].
  change (newlines (String c (s1 +:+ s2)) =
          (newlines (String c s1) + newlines s2)%nat).
  simpl. rewrite IH. lia.
Qed.

Lemma newlines_token (n ticks : Z) :
  newlines (note_token (midi_note_to_name n)
              (convert_ticks_to_duration ticks)) = 0%nat.
Proof.
  unfold note_token. rewrite !newlines_app.
  rewrite (note_name_forall (λ name, newlines name = 0%nat) eq_refl
             ltac:(compute_done) n).
  by rewrite (duration_forall (λ d, newlines (pretty d) = 0%nat)
                ltac:(compute_done) ticks).
Qed.

Lemma newlines_bar (bar : list string) :
  Forall (λ tok, newlines tok = 0%nat) bar →
  newlines (String.concat " | " bar) = 0%nat.
Proof.
  induction bar as [|tok bar IH]; intros Hbar; [done|].
  inversion Hbar as [|? ? Htok Hrest]; subst.
  destruct bar as [|tok' bar]; [done|].
  change (newlines (tok +:+ " | " +:+ String.concat " | " (tok' :: bar))
          = 0%nat).
  rewrite !newlines_app, Htok, (IH Hrest). done.
Qed.

Lemma newlines_ordinal_word (i : nat) : newlines (ordinal_word i) = 0%nat.
Proof. do 7 (destruct i as [|i]; [done|]). done. Qed.

Lemma newlines_header (n : nat) : (n ≤ 7)%nat → newlines (header n) = 1%nat.
Proof. intros Hn. do 8 (destruct n as [|n]; [done|]). lia. Qed.

Lemma newlines_rendered_line i lyric bar :
  (∀ lyric_line, lyric = Some lyric_line → newlines lyric_line = 0%nat) →
  Forall (λ tok, newlines tok = 0%nat) bar →
  newlines (rendered_line i lyric bar) = 1%nat.
Proof.
  intros Hlyric Hbar. unfold rendered_line.
  destruct lyric as [lyric_line|];
    rewrite !newlines_app, newlines_ordinal_word, (newlines_bar bar Hbar);
    [by rewrite (Hlyric lyric_line eq_refl) | done].
Qed.

Lemma newlines_join_lines (lines : list string) :
  Forall (λ line, newlines line = 1%nat) lines →
  newlines (join_lines lines) = length lines.
Proof.
  induction 1 as [|line lines Hline _ IH]; [done|].
  simpl. by rewrite newlines_app, Hline, IH.
Qed.

(** X13: one line per bar. When the call returns and no lyric contains a
    line feed, the text holds exactly one line feed for the header and one
    for each bar. *)
Theorem one_line_per_bar tracks lyrics tpb text :
  (midi_to_sc_format tracks lyrics tpb).1 = inr text →
  Forall (λ lyric_line, newlines lyric_line = 0%nat) lyrics →
  newlines text = S (length (converted_bars tracks tpb)).
Proof.
  unfold midi_to_sc_format. intros Htext Hlyrics.
  assert (Htokens : Forall (Forall (λ tok, newlines tok = 0%nat))
                      (converted_bars tracks tpb)).
  { rewrite segment_values. apply v_tokens_forall; [|done|done].
    apply newlines_token. }
  revert Htext Htokens. generalize (converted_bars tracks tpb). intros bs.
  destruct (decide (length bs ≤ 7)%nat) as [Hbs|Hbs];
    [|by rewrite format_raises by lia].
  rewrite format_returns by done. simpl. intros [= <-] Htokens.
  rewrite newlines_app, newlines_header by done.
  rewrite newlines_join_lines; [by unfold rendered_lines; rewrite length_imap|].
  apply Forall_lookup. intros i line Hline.
  apply list_lookup_imap_Some in Hline as (bar & Hbar & ->).
  apply newlines_rendered_line.
  - intros lyric_line Hl.
    by apply (proj1 (Forall_lookup _ _) Hlyrics i).
  - by apply (proj1 (Forall_lookup _ _) Htokens i).
Qed.

Lemma one_line_per_bar_witness :
  ∃ text,
    (midi_to_sc_format two_full_tracks nine_lyrics 480).1 = inr text
    ∧ newlines text = 3%nat.
Proof.
  eexists. split; [reflexivity|].
  apply (one_line_per_bar two_full_tracks nine_lyrics 480); [reflexivity|].
  repeat constructor.
Defined.

(** ** Calling twice with the same lyric list *)

(** X17: the lyric list is shared with the caller, so a second call with
    the same list goes on where the first one stopped: after two calls on
    the same tracks twice as many lyrics are gone, and when the first call
    returned (N <= 7 bars), line [i] of the second text reads
    "The <word> line: <lyric>, <notes>," with [lyrics[N + i]], or
    "The <word> line: <notes>," when the list has no such entry. *)
Theorem lyrics_across_calls tracks lyrics tpb :
  (midi_to_sc_format tracks (midi_to_sc_format tracks lyrics tpb).2 tpb).2 =
    drop (2 * (length (converted_bars tracks tpb) `min` 8)) lyrics
  ∧ ((length (converted_bars tracks tpb) ≤ 7)%nat →
       (midi_to_sc_format tracks
          (midi_to_sc_format tracks lyrics tpb).2 tpb).1 =
         inr ("Total " +:+ pretty (length (converted_bars tracks tpb))
              +:+ " lines." +:+ line_feed
              +:+ join_lines
                    (rendered_lines (converted_bars tracks tpb)
                       (drop (length (converted_bars tracks tpb)) lyrics)))
       ∧ length (rendered_lines (converted_bars tracks tpb)
                   (drop (length (converted_bars tracks tpb)) lyrics)) =
           length (converted_bars tracks tpb)
       ∧ ∀ i bar, converted_bars tracks tpb !! i = Some bar →
           ∃ word,
             [ "first"; "second"; "third"; "fourth"; "fifth"; "sixth"; "seventh" ]%string !! i
               = Some word
             ∧ rendered_lines (converted_bars tracks tpb)
                 (drop (length (converted_bars tracks tpb)) lyrics) !! i =
                 Some (match lyrics !! (length (converted_bars tracks tpb) + i)%nat
                       with
                       | Some lyric_line =>
                           "The " +:+ word +:+ " line: " +:+ lyric_line
                             +:+ ", " +:+ String.concat " | " bar
                             +:+ "," +:+ line_feed
                       | None =>
                           "The " +:+ word +:+ " line: "
                             +:+ String.concat " | " bar
                             +:+ "," +:+ line_feed
                       end)).
Proof.
  unfold midi_to_sc_format. set (bs := converted_bars tracks tpb). split.
  - rewrite !lyrics_after_format, drop_drop. f_equal. lia.
  - intros Hbs. rewrite (format_returns bs lyrics Hbs). simpl.
    split; [by apply format_returns_text|].
    split; [apply rendered_lines_length|].
    intros i bar Hbar.
    destruct (rendered_lines_text bs (drop (length bs) lyrics) i bar Hbs Hbar)
      as (word & Hword & Hline).
    exists word. split; [done|]. by rewrite Hline, lookup_drop.
Qed.

Lemma lyrics_across_calls_witness :
  (midi_to_sc_format two_full_tracks
     (midi_to_sc_format two_full_tracks nine_lyrics 480).2 480).1 =
    inr ("Total 2 lines." +:+ line_feed
         +:+ "The first line: l3, <C4>,<48>," +:+ line_feed
         +:+ "The second line: l4, <D4>,<79>," +:+ line_feed).
Proof.
  apply (proj2 (lyrics_across_calls two_full_tracks nine_lyrics 480)).
  vm_compute. lia.
Defined.
